(** * map-app: the location relay server and the trip-planning client

    A shallow embedding of
      - [src/backend/server.js] and its sibling copy [src/unnamed/part_000]
        (a socket.io relay: every [driverLocation] event of one client is
        re-emitted as [driverLocationUpdate] to the other clients), and
      - the state logic of [src/frontend/src/App.jsx] (pickup and drop
        selection by map clicks, the route effect, [clearAll]),
    together with the properties the specification states about them. *)

From Stdlib Require Import QArith Qround.
From stdpp Require Import gmap strings list fin_maps.

Local Open Scope string_scope.
Local Open Scope list_scope.
Local Set Warnings "-register-all".

(** ** JavaScript values *)

Module JS.

(** The values a handler can be called with.  Payloads arrive JSON-decoded,
    so numbers are finite; a handler called with no argument sees
    [undefined]. *)
Inductive value : Type :=
| JUndefined
| JNull
| JBool (b : bool)
| JNum (q : Q)
| JStr (s : string)
| JArr (items : list value)
| JObj (fields : list (string * value)).

(** [ToBoolean]: what [!x], [x && y] and [x || y] test. *)
Definition truthy (v : value) : bool :=
  match v with
  | JUndefined | JNull => false
  | JBool b => b
  | JNum q => negb (Qeq_bool q 0)
  | JStr s => negb (String.eqb s "")
  | JArr _ | JObj _ => true
  end.

(** [a || b] *)
Definition js_or (a b : value) : value := if truthy a then a else b.

(** [o.k] on an object literal or a decoded object; a missing key reads
    [undefined]. *)
Fixpoint get_field (k : string) (fields : list (string * value)) : value :=
  match fields with
  | [] => JUndefined
  | (k', v) :: rest => if String.eqb k k' then v else get_field k rest
  end.

(** The i-th actual argument of a call; a missing one is [undefined]. *)
Definition arg (i : nat) (args : list value) : value := nth i args JUndefined.

End JS.
Export JS.

(** ** The socket.io server object

    [io], the connected sockets and the broadcast operator belong to the
    socket.io library; they are modelled here as far as the handlers of
    server.js use them: the namespace's table of connected sockets keyed by
    socket id, one outbound write buffer per socket, and
    [socket.broadcast.emit], which writes a packet to every connected socket
    but the ones in its except set. *)

Module SocketIO.

Record packet : Type := Packet { ev : string; args : list value }.

Record Socket : Type := { writeBuffer : list packet }.

Record Server : Type := {
  sockets : gmap string Socket;       (* connected sockets, by socket.id *)
  wire : gmap string (list packet);   (* packets flushed to each client so far *)
  console : list (list value)         (* lines written by console.log *)
}.

Definition initial : Server :=
  {| sockets := ∅; wire := ∅; console := [] |}.

(** A handler either returns or throws; an exception nobody catches ends
    the process. *)
Inductive outcome (A : Type) : Type :=
| Returned (a : A) (s : Server)
| Thrown (e : value) (s : Server).
Arguments Returned {A} a s.
Arguments Thrown {A} e s.

Definition M (A : Type) : Type := Server → outcome A.

Definition ret {A} (a : A) : M A := fun s => Returned a s.

(** Sequencing: a statement after one that threw does not run. *)
Definition bind {A B} (k : A → M B) (m : M A) : M B :=
  fun s => match m s with
           | Returned a s' => k a s'
           | Thrown e s' => Thrown e s'
           end.

#[export] Instance M_ret : MRet M := @ret.
#[export] Instance M_bind : MBind M := @bind.

Definition throw {A} (e : value) : M A := fun s => Thrown e s.

Definition modify (f : Server → Server) : M unit := fun s => Returned tt (f s).

Definition push (p : packet) (sock : Socket) : Socket :=
  {| writeBuffer := writeBuffer sock ++ [p] |}.

(** [console.log(...line)] *)
Definition console_log (line : list value) : M unit :=
  modify (fun s => {| sockets := sockets s; wire := wire s;
                      console := console s ++ [line] |}).

(** The adapter's broadcast: the packet is written to the engine of every
    connected socket whose id is not excepted. *)
Definition adapter_broadcast (except : gset string) (p : packet)
    (socks : gmap string Socket) : gmap string Socket :=
  map_imap (fun id sock =>
              Some (if decide (id ∈ except) then sock else push p sock)) socks.

(** [socket.broadcast.emit(ev, ...args)]: the broadcast operator of a
    socket excepts the socket's own id. *)
Definition broadcast_emit (socket_id : string) (ev : string)
    (args : list value) : M unit :=
  modify (fun s => {| sockets := adapter_broadcast {[socket_id]} (Packet ev args) (sockets s);
                      wire := wire s; console := console s |}).

(** A new socket enters the table with an empty write buffer. *)
Definition register (id : string) : M unit :=
  modify (fun s => {| sockets := <[id := {| writeBuffer := [] |}]> (sockets s);
                      wire := wire s; console := console s |}).

(** A closed socket leaves the table; what was still buffered is lost. *)
Definition unregister (id : string) : M unit :=
  modify (fun s => {| sockets := delete id (sockets s);
                      wire := wire s; console := console s |}).

Definition wire_of (s : Server) (id : string) : list packet :=
  default [] (wire s !! id).

Definition buffer_of (s : Server) (id : string) : list packet :=
  from_option writeBuffer [] (sockets s !! id).

(** The transport of a socket becomes writable: the whole write buffer goes
    out, in order. *)
Definition flush (id : string) : M unit :=
  modify (fun s =>
    match sockets s !! id with
    | Some sock =>
        {| sockets := <[id := {| writeBuffer := [] |}]> (sockets s);
           wire := <[id := wire_of s id ++ writeBuffer sock]> (wire s);
           console := console s |}
    | None => s
    end).

(** Everything a client has been sent or is about to be sent, oldest
    first. *)
Definition stream (s : Server) (id : string) : list packet :=
  wire_of s id ++ buffer_of s id.

End SocketIO.
Export SocketIO.

(** ** server.js

    The two copies of the server differ in the text of their log lines
    (src/backend/server.js prefixes an emoji) and in [PORT]. *)

Module ServerJs.

(** [socket.on("driverLocation", (data) => { ... })] *)
Definition on_driverLocation (socket_id : string) (data : value) : M unit :=
  console_log [JStr "Driver location:"; data] ;;
  broadcast_emit socket_id "driverLocationUpdate" [data].

(** [socket.on("disconnect", () => { ... })] *)
Definition on_disconnect (socket_id : string) : M unit :=
  console_log [JStr "Client disconnected:"; JStr socket_id].

(** [io.on("connection", (socket) => { ... })]: logs; the two [socket.on]
    registrations are what [dispatch] below looks up. *)
Definition on_connection (socket_id : string) : M unit :=
  console_log [JStr "Client connected:"; JStr socket_id].

(** What reaches the server from outside. *)
Inductive event : Type :=
| Connect (id : string)
| Incoming (id : string) (name : string) (args : list value)
| Disconnect (id : string)
| Writable (id : string).

Definition connected (s : Server) (id : string) : bool :=
  bool_decide (id ∈ dom (sockets s)).

(** The library's side of an event: it keeps the socket table and calls
    the listener registered for the event, if any.  A socket that is not
    connected has no listeners; an event name nobody listens to is
    dropped. *)
Definition dispatch (e : event) : M unit :=
  fun s =>
    match e with
    | Connect id =>
        if connected s id then ret tt s
        else (register id ;; on_connection id) s
    | Incoming id name args =>
        if connected s id && String.eqb name "driverLocation"
        then on_driverLocation id (arg 0 args) s
        else ret tt s
    | Disconnect id =>
        if connected s id then (unregister id ;; on_disconnect id) s
        else ret tt s
    | Writable id => flush id s
    end.

(** The event loop: one event at a time, each handler run to completion;
    an exception out of a handler is uncaught and stops the loop. *)
Fixpoint run (events : list event) : M unit :=
  match events with
  | [] => ret tt
  | e :: rest => dispatch e ;; run rest
  end.

Definition state_of {A} (o : outcome A) : Server :=
  match o with Returned _ s | Thrown _ s => s end.

Definition step (s : Server) (e : event) : Server := state_of (dispatch e s).

Definition after (events : list event) (s : Server) : Server :=
  state_of (run events s).

(** The packet the relay sends for a payload. *)
Definition update (data : value) : packet :=
  Packet "driverLocationUpdate" [data].

(** A client was delivered to between [s] and [s'] when its write buffer
    is one packet longer in [s']. *)
Definition grew (s s' : Server) (id : string) : Prop :=
  length (buffer_of s' id) = S (length (buffer_of s id)).

#[export] Instance grew_dec s s' id : Decision (grew s s' id).
Proof. unfold grew. apply _. Defined.

Definition recipients (s s' : Server) : gset string :=
  filter (grew s s') (dom (sockets s')).

(** One location report of [x] per payload, in a row, nothing drained in
    between. *)
Definition flood (x : string) (payloads : list value) : list event :=
  map (fun data => Incoming x "driverLocation" [data]) payloads.

(** [const PORT = 5001;] (src/backend/server.js) *)
Definition PORT_backend (env : gmap string string) : value := JNum 5001.

(** [process.env.X]: a string when set, [undefined] otherwise. *)
Definition process_env (env : gmap string string) (name : string) : value :=
  match env !! name with
  | Some v => JStr v
  | None => JUndefined
  end.

(** [const PORT = process.env.PORT || 5001;] (src/unnamed/part_000) *)
Definition PORT (env : gmap string string) : value :=
  js_or (process_env env "PORT") (JNum 5001).

End ServerJs.
Export ServerJs.

(** ** The specification's validator and queue policy

    server.js has neither; these definitions follow the words of the
    specification (sections 4.2 and 5) so that the handler can be compared
    with them. *)

Module Spec.

Inductive Reason : Type := MissingField | OutOfRange | Malformed.

Record ValidationError : Type := { reason : Reason }.

Record LocationEvent : Type := {
  latitude : Q;
  longitude : Q;
  fields : list (string * value)   (* sender id, timestamp, heading, ... *)
}.

Definition within (lo hi q : Q) : bool := Qle_bool lo q && Qle_bool q hi.

(** [Validate(rawPayload) -> LocationEvent | ValidationError]: a structured
    object, [lat] and [lng] present, numbers, latitude in [-90, 90] and
    longitude in [-180, 180]. *)
Definition spec_Validate (raw : value) : LocationEvent + ValidationError :=
  match raw with
  | JObj fs =>
      match get_field "lat" fs, get_field "lng" fs with
      | JUndefined, _ | _, JUndefined => inr {| reason := MissingField |}
      | JNum la, JNum lo =>
          if within (-90) 90 la && within (-180) 180 lo
          then inl {| latitude := la; longitude := lo; fields := fs |}
          else inr {| reason := OutOfRange |}
      | _, _ => inr {| reason := Malformed |}
      end
  | _ => inr {| reason := Malformed |}
  end.

(** "Never passed to the broadcast dispatcher": a payload the validator
    rejects changes no socket. *)
Definition spec_rejects_before_dispatch : Prop :=
  ∀ (s : Server) (x : string) (raw : value) (err : ValidationError),
    x ∈ dom (sockets s) →
    spec_Validate raw = inr err →
    sockets (step s (Incoming x "driverLocation" [raw])) = sockets s.

(** "Outbound queues are bounded": one capacity bounds every write buffer
    of every state the server can reach. *)
Definition spec_queues_bounded : Prop :=
  ∃ capacity : nat, ∀ (events : list event) (r : string),
    (length (buffer_of (after events initial) r) ≤ capacity)%nat.

End Spec.
Export Spec.

(** ** App.jsx: the state of the trip planner

    The component keeps five pieces of state; handlers set them, React
    re-renders, and the route effect runs when [pickup] or [drop] changed.
    A route request is asynchronous: it is started by the effect and settles
    in a later turn of the event loop. *)

Module AppJsx.

(** A point handed over by Leaflet or by the search box.  [ref] is the
    identity of the JavaScript object: React compares dependencies with
    [Object.is]. *)
Record LatLng : Type := { ref : nat; lat : Q; lng : Q }.

Record Info : Type := { distance : Q; duration : Z }.

(** One entry of [data.routes] in the router's answer; coordinates are
    [lng, lat] pairs. *)
Record RouteData : Type := {
  coordinates : list (Q * Q);
  route_distance : Q;
  route_duration : Q
}.

(** How a request ends: [fetch] or [response.json()] rejects or the
    answer is not of the expected shape (caught by the [try]), or an
    answer with [data.routes] (absent counts as empty). *)
Inductive response : Type :=
| Rejected
| Resolved (routes : list RouteData).

Record App : Type := {
  pickup : option LatLng;
  drop : option LatLng;
  route : list (Q * Q);
  info : option Info;
  isLoadingRoute : bool;
  inflight : list (LatLng * LatLng)   (* requests awaiting their answer *)
}.

(** [useState(null)], [useState(null)], [useState([])], [useState(null)],
    [useState(false)] *)
Definition init : App :=
  {| pickup := None; drop := None; route := []; info := None;
     isLoadingRoute := false; inflight := [] |}.

Definition setPickup (v : option LatLng) (a : App) : App :=
  {| pickup := v; drop := drop a; route := route a; info := info a;
     isLoadingRoute := isLoadingRoute a; inflight := inflight a |}.

Definition setDrop (v : option LatLng) (a : App) : App :=
  {| pickup := pickup a; drop := v; route := route a; info := info a;
     isLoadingRoute := isLoadingRoute a; inflight := inflight a |}.

Definition setRoute (v : list (Q * Q)) (a : App) : App :=
  {| pickup := pickup a; drop := drop a; route := v; info := info a;
     isLoadingRoute := isLoadingRoute a; inflight := inflight a |}.

Definition setInfo (v : option Info) (a : App) : App :=
  {| pickup := pickup a; drop := drop a; route := route a; info := v;
     isLoadingRoute := isLoadingRoute a; inflight := inflight a |}.

Definition setIsLoadingRoute (v : bool) (a : App) : App :=
  {| pickup := pickup a; drop := drop a; route := route a; info := info a;
     isLoadingRoute := v; inflight := inflight a |}.

Definition setInflight (v : list (LatLng * LatLng)) (a : App) : App :=
  {| pickup := pickup a; drop := drop a; route := route a; info := info a;
     isLoadingRoute := isLoadingRoute a; inflight := v |}.

(** [!v] for a state that holds [null] or an object. *)
Definition unset {A} (v : option A) : bool :=
  match v with None => true | Some _ => false end.

(** [LocationMarkers]: the [click(e)] handler of [useMapEvents]. *)
Definition click (latlng : LatLng) (a : App) : App :=
  if unset (pickup a) then setPickup (Some latlng) a
  else if unset (drop a) then setDrop (Some latlng) a
  else setDrop None (setPickup (Some latlng) a).

(** [clearAll] *)
Definition clearAll (a : App) : App :=
  setInfo None (setRoute [] (setDrop None (setPickup None a))).

(** [Math.round(x)] *)
Definition Math_round (x : Q) : Z := Qfloor (x + (1 # 2)).

(** [x.toFixed(1)], as the number the string denotes, computed on the exact
    quotient.  JavaScript rounds the nearest double instead, which at a tie
    of the decimal may lie on the other side (1.45 prints as 1.4). *)
Definition toFixed1 (x : Q) : Q := Qmake (Qfloor (x * 10 + (1 # 2))) 10.

(** [fetchRoute] up to its first [await]. *)
Definition fetchRoute_start (p d : LatLng) (a : App) : App :=
  setInflight (inflight a ++ [(p, d)]) (setIsLoadingRoute true a).

(** [fetchRoute] after the [await]s: the [if], the [catch] and the
    [finally]. *)
Definition fetchRoute_settle (r : response) (a : App) : App :=
  setIsLoadingRoute false
    match r with
    | Resolved (routeData :: _) =>
        setInfo (Some {| distance := toFixed1 (route_distance routeData / 1000);
                         duration := Math_round (route_duration routeData / 60) |})
          (setRoute (map (fun coord => (coord.2, coord.1)) (coordinates routeData)) a)
    | Resolved [] | Rejected => a
    end.

(** The body of [useEffect(() => { ... }, [pickup, drop])]. *)
Definition effect (a : App) : App :=
  match pickup a, drop a with
  | Some p, Some d => fetchRoute_start p d a
  | _, _ => setInfo None (setRoute [] a)
  end.

(** [Object.is] on [null] or an object. *)
Definition Object_is (v w : option LatLng) : bool :=
  match v, w with
  | None, None => true
  | Some x, Some y => Nat.eqb (ref x) (ref y)
  | _, _ => false
  end.

Definition deps_changed (old new : App) : bool :=
  negb (Object_is (pickup old) (pickup new) && Object_is (drop old) (drop new)).

(** What can happen to the mounted component. *)
Inductive ui_event : Type :=
| MapClick (latlng : LatLng)
| SelectPickup (v : option LatLng)     (* onSelect={setPickup} *)
| SelectDrop (v : option LatLng)       (* onSelect={setDrop} *)
| ClearAll                             (* onClick={clearAll} *)
| Settled (k : nat) (r : response).    (* the k-th request in flight ends *)

Definition handler (e : ui_event) (a : App) : App :=
  match e with
  | MapClick latlng => click latlng a
  | SelectPickup v => setPickup v a
  | SelectDrop v => setDrop v a
  | ClearAll => clearAll a
  | Settled k r =>
      match inflight a !! k with
      | Some _ => fetchRoute_settle r (setInflight (delete k (inflight a)) a)
      | None => a
      end
  end.

(** One turn: the handler's updates are applied together, then the effect
    runs if a dependency changed. *)
Definition react (a : App) (e : ui_event) : App :=
  let a' := handler e a in
  if deps_changed a a' then effect a' else a'.

(** The first render runs the effect once. *)
Definition mounted : App := effect init.

Definition play (events : list ui_event) (a : App) : App :=
  fold_left react events a.

(** What the user does, as opposed to what the network does. *)
Definition is_user_event (e : ui_event) : bool :=
  match e with Settled _ _ => false | _ => true end.

(** The route is reset wherever an endpoint is missing. *)
Definition route_needs_endpoints (a : App) : Prop :=
  pickup a = None ∨ drop a = None → route a = [] ∧ info a = None.

End AppJsx.

(** ** The scenario of the specification *)

Module Scenario.

(** Three clients A, B and C are connected. *)
Definition abc : Server := after [Connect "A"; Connect "B"; Connect "C"] initial.

(** [{lat: 28.61, lng: 77.20}] *)
Definition delhi : value := JObj [("lat", JNum 28.61); ("lng", JNum 77.20)].

(** [{lat: 200, lng: 77.20}]: no such latitude. *)
Definition lat200 : value := JObj [("lat", JNum 200); ("lng", JNum 77.20)].

Definition report (x : string) (data : value) : event :=
  Incoming x "driverLocation" [data].

End Scenario.
Export Scenario.

(** ** A session of the trip planner *)

Module Trip.
Import AppJsx.
Local Open Scope Q_scope.

Definition connaught_place : LatLng := {| ref := 1%nat; lat := 28.63; lng := 77.22 |}.
Definition india_gate : LatLng := {| ref := 2%nat; lat := 28.61; lng := 77.23 |}.

(** The router's answer for that pair: one route of 3.2 km and 9 minutes. *)
Definition answer : response :=
  Resolved [ {| coordinates := [(77.22, 28.63); (77.23, 28.62); (77.23, 28.61)];
                route_distance := 3210; route_duration := 540 |} ].

(** Pickup and drop are chosen on the map, the request goes out, the user
    presses Clear, and then the answer arrives. *)
Definition clear_before_answer : list ui_event :=
  [MapClick connaught_place; MapClick india_gate; ClearAll; Settled 0%nat answer].

End Trip.

(** ** Whole runs of the relay *)

Module Runs.

(** Events that leave the set of connected clients alone. *)
Definition is_traffic (e : event) : bool :=
  match e with
  | Incoming _ _ _ | Writable _ => true
  | Connect _ | Disconnect _ => false
  end.

(** What client [r] is to be sent for one event, [members] being connected:
    the update for a [driverLocation] report of another member. *)
Definition heard (members : gset string) (r : string) (e : event) : list packet :=
  match e with
  | Incoming x name args =>
      if bool_decide (x ∈ members) && String.eqb name "driverLocation"
         && negb (String.eqb x r)
      then [update (arg 0 args)] else []
  | _ => []
  end.

Definition heard_by (members : gset string) (r : string) (events : list event)
    : list packet :=
  flat_map (heard members r) events.



End Runs.
Export Runs.

(** ** App.jsx: what is rendered

    The conditions of the JSX, the same in the mobile and the desktop
    layout. *)

Module AppView.
Import AppJsx.

(** [{(info || isLoadingRoute) && (isLoadingRoute ? <spinner/> : info &&
    <summary/>)}] *)
Inductive Panel : Type :=
| NoPanel
| Spinner
| Summary (i : Info).

Definition route_panel (a : App) : Panel :=
  if negb (unset (info a)) || isLoadingRoute a then
    if isLoadingRoute a then Spinner
    else match info a with Some i => Summary i | None => NoPanel end
  else NoPanel.

(** [{route.length > 0 && <Polyline positions={route} .../>}] *)
Definition polyline (a : App) : option (list (Q * Q)) :=
  if (0 <? length (route a))%nat then Some (route a) else None.

(** [{(pickup || drop) && <button onClick={clearAll}>...}] *)
Definition clear_button (a : App) : bool :=
  negb (unset (pickup a)) || negb (unset (drop a)).

(** Every request that ends does so while both endpoints are set. *)
Fixpoint timely (a : App) (events : list ui_event) : bool :=
  match events with
  | [] => true
  | e :: rest =>
      match e with
      | Settled _ _ => negb (unset (pickup a)) && negb (unset (drop a))
      | _ => true
      end && timely (react a e) rest
  end.

End AppView.

(** ** What leaves the server: the JSON encoding

    A packet is sent as JSON text and parsed by the receiving client. *)

Module Encoding.

(** [JSON.parse(JSON.stringify(v))] for a value in an array position, which
    is where the arguments of an event are: [undefined] becomes [null]
    there and in inner arrays, and a property whose value is [undefined] is
    left out of its object. *)
Fixpoint encode (v : value) : value :=
  match v with
  | JUndefined => JNull
  | JArr items => JArr (map encode items)
  | JObj fields =>
      JObj ((fix properties (fs : list (string * value)) : list (string * value) :=
               match fs with
               | [] => []
               | (_, JUndefined) :: rest => properties rest
               | (k, w) :: rest => (k, encode w) :: properties rest
               end) fields)
  | JNull | JBool _ | JNum _ | JStr _ => v
  end.

(** The values JSON text can denote: no [undefined] anywhere.  A payload
    that came with an event is one of them. *)
Fixpoint is_json (v : value) : bool :=
  match v with
  | JUndefined => false
  | JArr items => forallb is_json items
  | JObj fields => forallb (fun '(_, w) => is_json w) fields
  | JNull | JBool _ | JNum _ | JStr _ => true
  end.

(** The packet as the receiving client's listener gets it. *)
Definition on_the_wire (p : packet) : packet :=
  Packet (ev p) (map encode (args p)).

End Encoding.
Export Encoding.

(** ** The two copies of server.js

    The listeners of src/backend/server.js and of src/unnamed/part_000 are
    the same but for the text they log.  [dispatch_as] is [dispatch] with
    that text as a parameter; with the texts of part_000 it is [dispatch]
    itself. *)

Module Copies.

Record log_labels : Type := {
  connected_text : string;
  location_text : string;
  disconnected_text : string
}.

(** src/unnamed/part_000, lines 16, 19 and 25 *)
Definition part_000_labels : log_labels :=
  {| connected_text := "Client connected:";
     location_text := "Driver location:";
     disconnected_text := "Client disconnected:" |}.

(** src/backend/server.js, lines 16, 20 and 26 *)
Definition backend_labels : log_labels :=
  {| connected_text := "🟢 Client connected:";
     location_text := "🚖 Driver location:";
     disconnected_text := "🔴 Client disconnected:" |}.

Definition on_driverLocation_as (t : log_labels) (socket_id : string)
    (data : value) : M unit :=
  console_log [JStr (location_text t); data] ;;
  broadcast_emit socket_id "driverLocationUpdate" [data].

Definition on_disconnect_as (t : log_labels) (socket_id : string) : M unit :=
  console_log [JStr (disconnected_text t); JStr socket_id].

Definition on_connection_as (t : log_labels) (socket_id : string) : M unit :=
  console_log [JStr (connected_text t); JStr socket_id].

Definition dispatch_as (t : log_labels) (e : event) : M unit :=
  fun s =>
    match e with
    | Connect id =>
        if connected s id then ret tt s
        else (register id ;; on_connection_as t id) s
    | Incoming id name args =>
        if connected s id && String.eqb name "driverLocation"
        then on_driverLocation_as t id (arg 0 args) s
        else ret tt s
    | Disconnect id =>
        if connected s id then (unregister id ;; on_disconnect_as t id) s
        else ret tt s
    | Writable id => flush id s
    end.

Fixpoint run_as (t : log_labels) (events : list event) : M unit :=
  match events with
  | [] => ret tt
  | e :: rest => dispatch_as t e ;; run_as t rest
  end.

Definition step_as (t : log_labels) (s : Server) (e : event) : Server :=
  state_of (dispatch_as t e s).

Definition after_as (t : log_labels) (events : list event) (s : Server) : Server :=
  state_of (run_as t events s).

(** A, B and C connected to src/backend/server.js. *)
Definition abc_backend : Server :=
  after_as backend_labels [Connect "A"; Connect "B"; Connect "C"] initial.

End Copies.
Export Copies.

(** * Properties of the relay *)

Section Relay.

Implicit Types (s : Server) (id x r : string) (p : packet) (e : event).

Lemma connected_true s id : connected s id = true ↔ id ∈ dom (sockets s).
Proof. unfold connected. apply bool_decide_eq_true. Qed.

Lemma connected_false s id : connected s id = false ↔ id ∉ dom (sockets s).
Proof. unfold connected. apply bool_decide_eq_false. Qed.

Lemma buffer_of_gone s id : id ∉ dom (sockets s) → buffer_of s id = [].
Proof.
  intros Hid%not_elem_of_dom. unfold buffer_of. by rewrite Hid.
Qed.

Lemma lookup_adapter_broadcast (X : gset string) p (m : gmap string Socket) id :
  adapter_broadcast X p m !! id
  = (fun sock => if decide (id ∈ X) then sock else push p sock) <$> m !! id.
Proof.
  unfold adapter_broadcast. rewrite map_lookup_imap.
  by destruct (m !! id).
Qed.

Lemma dom_adapter_broadcast (X : gset string) p (m : gmap string Socket) :
  dom (adapter_broadcast X p m) = dom m.
Proof.
  apply set_eq. intros id. rewrite !elem_of_dom, lookup_adapter_broadcast.
  by rewrite fmap_is_Some.
Qed.

Lemma buffer_of_broadcast s (X : gset string) p w c id :
  buffer_of {| sockets := adapter_broadcast X p (sockets s); wire := w; console := c |} id
  = if decide (id ∈ X ∨ id ∉ dom (sockets s)) then buffer_of s id
    else buffer_of s id ++ [p].
Proof.
  unfold buffer_of. cbn [sockets]. rewrite lookup_adapter_broadcast.
  destruct (sockets s !! id) as [sock|] eqn:E; cbn.
  - assert (Hin : id ∈ dom (sockets s)) by (apply elem_of_dom; eauto).
    destruct (decide (id ∈ X)) as [HX|HX].
    + by rewrite decide_True by by left.
    + by rewrite decide_False by (intros [?|?]; done).
  - rewrite decide_True; [done|]. right. by apply not_elem_of_dom.
Qed.

(** *** One step, event by event *)

Lemma dispatch_returns e s : dispatch e s = Returned tt (step s e).
Proof.
  unfold step. destruct e as [id|id name args|id|id]; cbn.
  - by destruct (connected s id).
  - by destruct (connected s id && String.eqb name "driverLocation").
  - by destruct (connected s id).
  - done.
Qed.

Lemma step_driverLocation s x args :
  x ∈ dom (sockets s) →
  step s (Incoming x "driverLocation" args)
  = {| sockets := adapter_broadcast {[x]} (update (arg 0 args)) (sockets s);
       wire := wire s;
       console := console s ++ [[JStr "Driver location:"; arg 0 args]] |}.
Proof.
  intros Hx. unfold step. cbn.
  apply connected_true in Hx. by rewrite Hx.
Qed.

Lemma step_connect s id :
  id ∉ dom (sockets s) →
  step s (Connect id)
  = {| sockets := <[id := {| writeBuffer := [] |}]> (sockets s);
       wire := wire s;
       console := console s ++ [[JStr "Client connected:"; JStr id]] |}.
Proof.
  intros Hid. unfold step. cbn.
  apply connected_false in Hid. by rewrite Hid.
Qed.

Lemma step_disconnect s id :
  id ∈ dom (sockets s) →
  step s (Disconnect id)
  = {| sockets := delete id (sockets s);
       wire := wire s;
       console := console s ++ [[JStr "Client disconnected:"; JStr id]] |}.
Proof.
  intros Hid. unfold step. cbn.
  apply connected_true in Hid. by rewrite Hid.
Qed.

Lemma step_writable s id sock :
  sockets s !! id = Some sock →
  step s (Writable id)
  = {| sockets := <[id := {| writeBuffer := [] |}]> (sockets s);
       wire := <[id := wire_of s id ++ writeBuffer sock]> (wire s);
       console := console s |}.
Proof. intros Hid. unfold step. cbn. by rewrite Hid. Qed.

(** Every other case leaves the server as it is: a second [Connect] of a
    connected id, an event of a socket that is not connected, an event
    name without listener, a flush of a socket that is gone. *)
Lemma step_ignored s e :
  match e with
  | Connect id => id ∈ dom (sockets s)
  | Incoming id name _ => id ∉ dom (sockets s) ∨ name ≠ "driverLocation"
  | Disconnect id | Writable id => id ∉ dom (sockets s)
  end →
  step s e = s.
Proof.
  unfold step. destruct e as [id|id name args|id|id]; cbn.
  - intros Hid%connected_true. by rewrite Hid.
  - intros [Hid%connected_false | Hname].
    + by rewrite Hid.
    + apply String.eqb_neq in Hname. rewrite Hname.
      by rewrite andb_false_r.
  - intros Hid%connected_false. by rewrite Hid.
  - intros Hid%not_elem_of_dom. by rewrite Hid.
Qed.

(** *** Runs *)

Lemma after_cons e events s : after (e :: events) s = after events (step s e).
Proof.
  unfold after. cbn. unfold mbind, M_bind, bind.
  by rewrite dispatch_returns.
Qed.

Lemma after_app events1 events2 s :
  after (events1 ++ events2) s = after events2 (after events1 s).
Proof.
  revert s. induction events1 as [|e events1 IH]; intros s; [done|].
  cbn. by rewrite !after_cons, IH.
Qed.

Lemma run_returns events s : run events s = Returned tt (after events s).
Proof.
  revert s. induction events as [|e events IH]; intros s; [done|].
  rewrite after_cons. cbn. unfold mbind, M_bind, bind.
  by rewrite dispatch_returns, IH.
Qed.

(** *** What a client is sent only grows, in order *)

Lemma stream_ext s s' r :
  sockets s' !! r = sockets s !! r → wire s' !! r = wire s !! r →
  stream s' r = stream s r.
Proof.
  intros Hs Hw. unfold stream, wire_of, buffer_of. by rewrite Hs, Hw.
Qed.

Lemma stream_step s e r :
  r ∈ dom (sockets s) → e ≠ Disconnect r →
  r ∈ dom (sockets (step s e))
  ∧ ∃ more, stream (step s e) r = stream s r ++ more.
Proof.
  intros Hr Hne. destruct e as [id|id name args|id|id].
  - destruct (decide (id ∈ dom (sockets s))) as [Hid|Hid].
    + rewrite step_ignored by done. split; [done|]. exists []. by rewrite app_nil_r.
    + rewrite step_connect by done. cbn [sockets].
      assert (id ≠ r) by (intros ->; done).
      split; [rewrite dom_insert_L; apply elem_of_union; by right|].
      exists []. rewrite app_nil_r. apply stream_ext; cbn; [|done].
      by rewrite lookup_insert_ne.
  - destruct (decide (id ∈ dom (sockets s) ∧ name = "driverLocation"))
      as [[Hid ->]|Hno].
    + rewrite step_driverLocation by done. cbn [sockets].
      split; [by rewrite dom_adapter_broadcast|].
      unfold stream at 1. rewrite buffer_of_broadcast. unfold wire_of at 1.
      cbn [wire]. fold (wire_of s r).
      case_decide.
      * exists []. by rewrite app_nil_r.
      * exists [update (arg 0 args)]. unfold stream. by rewrite app_assoc.
    + rewrite step_ignored.
      * split; [done|]. exists []. by rewrite app_nil_r.
      * destruct (decide (id ∈ dom (sockets s))); [|by left].
        right. intros ->. by apply Hno.
  - assert (id ≠ r) by (intros ->; done).
    destruct (decide (id ∈ dom (sockets s))) as [Hid|Hid].
    + rewrite step_disconnect by done. cbn [sockets].
      split.
      { rewrite dom_delete_L. apply elem_of_difference.
        split; [done|]. by apply not_elem_of_singleton. }
      exists []. rewrite app_nil_r. apply stream_ext; cbn; [|done].
      by rewrite lookup_delete_ne.
    + rewrite step_ignored by done. split; [done|]. exists []. by rewrite app_nil_r.
  - destruct (sockets s !! id) as [sock|] eqn:Hid.
    + rewrite (step_writable _ _ sock) by done. cbn [sockets].
      split; [rewrite dom_insert_L; apply elem_of_union; by right|].
      exists []. rewrite app_nil_r.
      destruct (decide (id = r)) as [->|Hidr].
      * unfold stream, wire_of, buffer_of. cbn.
        rewrite !lookup_insert_eq, Hid. cbn. by rewrite app_nil_r.
      * apply stream_ext; cbn; by rewrite lookup_insert_ne.
    + rewrite step_ignored by by apply not_elem_of_dom.
      split; [done|]. exists []. by rewrite app_nil_r.
Qed.

Lemma stream_after s events r :
  r ∈ dom (sockets s) → Disconnect r ∉ events →
  r ∈ dom (sockets (after events s))
  ∧ ∃ more, stream (after events s) r = stream s r ++ more.
Proof.
  revert s. induction events as [|e events IH]; intros s Hr Hne.
  - split; [done|]. exists []. by rewrite app_nil_r.
  - rewrite after_cons.
    apply not_elem_of_cons in Hne as [Hne1 Hne2].
    destruct (stream_step s e r Hr) as [Hr1 [more1 E1]]; [done|].
    destruct (IH (step s e) Hr1 Hne2) as [Hr2 [more2 E2]].
    split; [done|]. exists (more1 ++ more2).
    by rewrite E2, E1, app_assoc.
Qed.

(** *** A socket that is gone stays out of reach *)

Lemma gone_step s e x :
  x ∉ dom (sockets s) → e ≠ Connect x →
  (x ∉ dom (sockets (step s e))) ∧ wire_of (step s e) x = wire_of s x.
Proof.
  intros Hx Hne. destruct e as [id|id name args|id|id].
  - assert (id ≠ x) by (intros ->; done).
    destruct (decide (id ∈ dom (sockets s))) as [Hid|Hid].
    + by rewrite step_ignored.
    + rewrite step_connect by done. cbn [sockets].
      split; [|done]. rewrite dom_insert_L.
      apply not_elem_of_union. split; [by apply not_elem_of_singleton|done].
  - destruct (decide (id ∈ dom (sockets s) ∧ name = "driverLocation"))
      as [[Hid ->]|Hno].
    + rewrite step_driverLocation by done. cbn [sockets].
      by rewrite dom_adapter_broadcast.
    + rewrite step_ignored; [done|].
      destruct (decide (id ∈ dom (sockets s))); [|by left].
      right. intros ->. by apply Hno.
  - destruct (decide (id ∈ dom (sockets s))) as [Hid|Hid].
    + rewrite step_disconnect by done. cbn [sockets].
      split; [|done]. rewrite dom_delete_L.
      intros [? _]%elem_of_difference. done.
    + by rewrite step_ignored.
  - destruct (sockets s !! id) as [sock|] eqn:Hid.
    + assert (id ≠ x).
      { intros ->. apply Hx, elem_of_dom. eauto. }
      rewrite (step_writable _ _ sock) by done. cbn [sockets].
      split.
      { rewrite dom_insert_L.
        apply not_elem_of_union. split; [by apply not_elem_of_singleton|done]. }
      unfold wire_of. cbn. by rewrite lookup_insert_ne.
    + by rewrite step_ignored by by apply not_elem_of_dom.
Qed.

Lemma gone_after s events x :
  x ∉ dom (sockets s) → Connect x ∉ events →
  (x ∉ dom (sockets (after events s)))
  ∧ wire_of (after events s) x = wire_of s x.
Proof.
  revert s. induction events as [|e events IH]; intros s Hx Hne; [done|].
  rewrite after_cons.
  apply not_elem_of_cons in Hne as [Hne1 Hne2].
  destruct (gone_step s e x Hx (not_eq_sym Hne1)) as [Hx1 E1].
  destruct (IH (step s e) Hx1 Hne2) as [Hx2 E2].
  split; [done|]. by rewrite E2.
Qed.

(** *** What one step does to one write buffer *)

Lemma buffer_step_cases s e r :
  buffer_of (step s e) r = buffer_of s r
  ∨ buffer_of (step s e) r = []
  ∨ ∃ x args, e = Incoming x "driverLocation" args
              ∧ buffer_of (step s e) r = buffer_of s r ++ [update (arg 0 args)].
Proof.
  destruct e as [id|id name args|id|id].
  - destruct (decide (id ∈ dom (sockets s))) as [Hid|Hid].
    + left. by rewrite step_ignored.
    + rewrite step_connect by done. unfold buffer_of. cbn [sockets].
      destruct (decide (id = r)) as [->|Hne].
      * right; left. by rewrite lookup_insert_eq.
      * left. by rewrite lookup_insert_ne.
  - destruct (decide (id ∈ dom (sockets s) ∧ name = "driverLocation"))
      as [[Hid ->]|Hno].
    + rewrite step_driverLocation by done. rewrite buffer_of_broadcast.
      case_decide; [by left|]. right; right. by exists id, args.
    + left. rewrite step_ignored; [done|].
      destruct (decide (id ∈ dom (sockets s))); [|by left].
      right. intros ->. by apply Hno.
  - destruct (decide (id ∈ dom (sockets s))) as [Hid|Hid].
    + rewrite step_disconnect by done. unfold buffer_of. cbn [sockets].
      destruct (decide (id = r)) as [->|Hne].
      * right; left. by rewrite lookup_delete_eq.
      * left. by rewrite lookup_delete_ne.
    + left. by rewrite step_ignored.
  - destruct (sockets s !! id) as [sock|] eqn:Hid.
    + rewrite (step_writable _ _ sock) by done. unfold buffer_of. cbn [sockets].
      destruct (decide (id = r)) as [->|Hne].
      * right; left. by rewrite lookup_insert_eq.
      * left. by rewrite lookup_insert_ne.
    + left. by rewrite step_ignored by by apply not_elem_of_dom.
Qed.

(** *** Flooding *)

Lemma flood_buffer s x r payloads :
  x ∈ dom (sockets s) → r ∈ dom (sockets s) → r ≠ x →
  x ∈ dom (sockets (after (flood x payloads) s))
  ∧ r ∈ dom (sockets (after (flood x payloads) s))
  ∧ buffer_of (after (flood x payloads) s) r
    = buffer_of s r ++ map update payloads.
Proof.
  revert s. induction payloads as [|data payloads IH]; intros s Hx Hr Hne.
  - cbn. by rewrite app_nil_r.
  - cbn [flood map]. rewrite after_cons. fold (flood x payloads).
    assert (Hs : step s (Incoming x "driverLocation" [data])
                 = {| sockets := adapter_broadcast {[x]} (update data) (sockets s);
                      wire := wire s;
                      console := console s ++ [[JStr "Driver location:"; data]] |})
      by by rewrite step_driverLocation.
    destruct (IH (step s (Incoming x "driverLocation" [data]))) as (Hx' & Hr' & E).
    + by rewrite Hs; cbn [sockets]; rewrite dom_adapter_broadcast.
    + by rewrite Hs; cbn [sockets]; rewrite dom_adapter_broadcast.
    + done.
    + split; [done|]. split; [done|]. rewrite E, Hs, buffer_of_broadcast.
      rewrite decide_False.
      * by rewrite <- app_assoc.
      * intros [Hrx%elem_of_singleton|?]; done.
Qed.

End Relay.

(** * The two copies and the encoding *)

Section TwoCopies.

Implicit Types (t : log_labels) (s : Server) (id x r : string) (e : event).

(** With the texts of part_000 the parametrised server is the server. *)
Lemma dispatch_as_part_000 e s : dispatch_as part_000_labels e s = dispatch e s.
Proof. by destruct e. Qed.



(** The copies differ in the console only. *)
Lemma step_as_tables t s e :
  sockets (step_as t s e) = sockets (step s e)
  ∧ wire (step_as t s e) = wire (step s e).
Proof.
  unfold step_as, step. destruct e as [id|id name args|id|id]; cbn.
  - by destruct (connected s id).
  - by destruct (connected s id && String.eqb name "driverLocation").
  - by destruct (connected s id).
  - done.
Qed.

Lemma step_as_driverLocation t s x args :
  x ∈ dom (sockets s) →
  step_as t s (Incoming x "driverLocation" args)
  = {| sockets := adapter_broadcast {[x]} (update (arg 0 args)) (sockets s);
       wire := wire s;
       console := console s ++ [[JStr (location_text t); arg 0 args]] |}.
Proof.
  intros Hx. unfold step_as. cbn.
  apply connected_true in Hx. by rewrite Hx.
Qed.

(** Encoding gives a JSON value back as it is. *)
Lemma encode_json : ∀ v : value, is_json v = true → encode v = v.
Proof.
  fix IH 1. intros [ | |b|q|str|items|fields] Hv; try done.
  - cbn in *. f_equal.
    induction items as [|w items IHitems]; [done|].
    cbn in *. apply andb_true_iff in Hv as [Hw Hitems].
    by rewrite (IH w Hw), IHitems.
  - cbn in *. f_equal.
    induction fields as [|[k w] fields IHfields]; [done|].
    cbn in Hv. apply andb_true_iff in Hv as [Hw Hfields].
    rewrite (IHfields Hfields), (IH w Hw).
    by destruct w.
Qed.

End TwoCopies.

(** * The relay against its specification *)

Lemma abc_connected x : x ∈ ["A"; "B"; "C"] → x ∈ dom (sockets abc).
Proof.
  intros Hx. apply elem_of_dom.
  repeat (apply elem_of_cons in Hx as [->|Hx]; [by vm_compute; eexists|]).
  by apply elem_of_nil in Hx.
Qed.

Lemma recipients_driverLocation s x args :
  x ∈ dom (sockets s) →
  recipients s (step s (Incoming x "driverLocation" args)) = dom (sockets s) ∖ {[x]}.
Proof.
  intros Hx. rewrite step_driverLocation by done.
  apply set_eq. intros r. unfold recipients.
  etrans; [apply elem_of_filter|].
  unfold grew. cbn [sockets]. rewrite dom_adapter_broadcast.
  rewrite buffer_of_broadcast. split.
  - intros [Hg Hr]. apply elem_of_difference. split; [done|].
    intros Hrx. rewrite decide_True in Hg by by left. lia.
  - intros [Hr Hne]%elem_of_difference. split; [|done].
    rewrite decide_False by (intros [?|?]; done).
    rewrite length_app. cbn. lia.
Qed.

Lemma stream_driverLocation s x r data :
  x ∈ dom (sockets s) → r ∈ dom (sockets s) → r ≠ x →
  stream (step s (Incoming x "driverLocation" [data])) r
  = stream s r ++ [update data].
Proof.
  intros Hx Hr Hne. rewrite step_driverLocation by done.
  unfold stream. rewrite buffer_of_broadcast.
  rewrite decide_False by (intros [Hrx%elem_of_singleton|?]; done).
  by rewrite app_assoc.
Qed.

(** The scenario of section 8 of the specification: A reports, B and C are
    sent one update each and A none; B leaves and A reports again: only C is
    sent it, and two sockets remain. *)
Example three_clients_then_two :
  let s1 := step abc (report "A" delhi) in
  let s2 := after [Disconnect "B"; report "A" delhi] s1 in
  buffer_of s1 "A" = [] ∧ buffer_of s1 "B" = [update delhi]
  ∧ buffer_of s1 "C" = [update delhi]
  ∧ buffer_of s2 "A" = [] ∧ buffer_of s2 "B" = []
  ∧ buffer_of s2 "C" = [update delhi; update delhi]
  ∧ size (sockets s2) = 2.
Proof. by vm_compute. Qed.

(** C1. With N clients connected, a [driverLocation] event of client [x]
    makes the server deliver one [driverLocationUpdate] to each of the N-1
    other clients and nothing to [x]: the clients delivered to are exactly
    the connected ones but [x], there are N-1 of them, each has the update
    appended to its write buffer, and the buffer of [x] is as before. *)
Theorem driverLocation_reaches_all_but_origin (s : Server) (x : string) (data : value) :
  x ∈ dom (sockets s) →
  let s' := step s (Incoming x "driverLocation" [data]) in
  recipients s s' = dom (sockets s) ∖ {[x]}
  ∧ size (recipients s s') = size (sockets s) - 1
  ∧ (∀ r, r ∈ recipients s s' → buffer_of s' r = buffer_of s r ++ [update data])
  ∧ (x ∉ recipients s s')
  ∧ stream s' x = stream s x.
Proof.
  intros Hx s'. subst s'.
  rewrite recipients_driverLocation by done.
  split; [done|]. split.
  { rewrite size_difference.
    - by rewrite size_dom, size_singleton.
    - by apply singleton_subseteq_l. }
  rewrite step_driverLocation by done.
  split; [|split].
  - intros r [Hr Hne]%elem_of_difference. rewrite buffer_of_broadcast.
    rewrite decide_False; [done|]. intros [?|?]; done.
  - intros [_ Hne]%elem_of_difference. by apply Hne, elem_of_singleton.
  - unfold stream. rewrite buffer_of_broadcast.
    rewrite decide_True; [done|]. left. by apply elem_of_singleton.
Qed.

Lemma driverLocation_reaches_all_but_origin_witness :
  "A" ∈ dom (sockets abc)
  ∧ let s' := step abc (report "A" delhi) in
    recipients abc s' = dom (sockets abc) ∖ {["A"]}
    ∧ size (recipients abc s') = size (sockets abc) - 1
    ∧ (∀ r, r ∈ recipients abc s' → buffer_of s' r = buffer_of abc r ++ [update delhi])
    ∧ ("A" ∉ recipients abc s')
    ∧ stream s' "A" = stream abc "A".
Proof.
  assert (H : "A" ∈ dom (sockets abc)) by (apply abc_connected; set_solver).
  split; [exact H|].
  exact (driverLocation_reaches_all_but_origin abc "A" delhi H).
Defined.

(** C2, as the specification has it, fails: the payload [{lat: 200, lng:
    77.2}] is one the validator of the specification rejects as out of
    range, and the handler relays it to B all the same. *)
Lemma lat200_is_relayed :
  spec_Validate lat200 = inr {| reason := OutOfRange |}
  ∧ buffer_of (step abc (report "A" lat200)) "B" = [update lat200]
  ∧ ¬ spec_rejects_before_dispatch.
Proof.
  split; [by vm_compute|]. split; [by vm_compute|].
  intros Hspec.
  assert (HA : "A" ∈ dom (sockets abc)) by (apply abc_connected; set_solver).
  specialize (Hspec abc "A" lat200 {| reason := OutOfRange |} HA eq_refl).
  apply (f_equal (fun m => from_option writeBuffer [] (m !! "B"))) in Hspec.
  vm_compute in Hspec. discriminate Hspec.
Qed.

(** C2, amended. Neither copy validates: whatever the payload is, and
    whatever the validator of the specification would say about it, the
    handler returns normally and produces no error value; the payload is
    written to the console as it came, after the text of the copy, and is
    appended as it came to the write buffer of every other connected
    client; and a payload that is a JSON value reaches them unchanged. *)
Theorem driverLocation_is_logged_and_relayed_unvalidated (t : log_labels)
    (s : Server) (x : string) (raw : value) :
  x ∈ dom (sockets s) →
  let s' := step_as t s (Incoming x "driverLocation" [raw]) in
  on_driverLocation_as t x raw s = Returned tt s'
  ∧ console s' = console s ++ [[JStr (location_text t); raw]]
  ∧ (∀ r, r ∈ dom (sockets s) → r ≠ x →
          buffer_of s' r = buffer_of s r ++ [update raw])
  ∧ (is_json raw = true → on_the_wire (update raw) = update raw).
Proof.
  intros Hx s'. subst s'. split; [|split; [|split]].
  - unfold step_as. cbn. apply connected_true in Hx. by rewrite Hx.
  - by rewrite step_as_driverLocation.
  - intros r Hr Hne. rewrite step_as_driverLocation by done.
    rewrite buffer_of_broadcast. rewrite decide_False; [done|].
    intros [Hrx%elem_of_singleton|?]; done.
  - intros Hjson. unfold on_the_wire, update. cbn.
    by rewrite encode_json.
Qed.

Lemma driverLocation_is_logged_and_relayed_unvalidated_witness :
  "A" ∈ dom (sockets abc_backend)
  ∧ let s' := step_as backend_labels abc_backend (report "A" lat200) in
    on_driverLocation_as backend_labels "A" lat200 abc_backend = Returned tt s'
    ∧ console s' = console abc_backend ++ [[JStr (location_text backend_labels); lat200]]
    ∧ (∀ r, r ∈ dom (sockets abc_backend) → r ≠ "A" →
            buffer_of s' r = buffer_of abc_backend r ++ [update lat200])
    ∧ (is_json lat200 = true → on_the_wire (update lat200) = update lat200).
Proof.
  assert (H : "A" ∈ dom (sockets abc_backend)).
  { apply elem_of_dom. by vm_compute; eexists. }
  split; [exact H|].
  exact (driverLocation_is_logged_and_relayed_unvalidated
           backend_labels abc_backend "A" lat200 H).
Defined.

(** C3, as the specification has it, fails: no capacity bounds the write
    buffers.  With A and B connected, [capacity + 1] reports of A leave
    [capacity + 1] packets waiting for B. *)
Lemma write_buffer_is_unbounded : ¬ spec_queues_bounded.
Proof.
  intros [capacity Hbound].
  set (connects := [Connect "A"; Connect "B"]).
  specialize (Hbound (connects ++ flood "A" (replicate (S capacity) JNull)) "B").
  rewrite after_app in Hbound.
  destruct (flood_buffer (after connects initial) "A" "B"
              (replicate (S capacity) JNull)) as (_ & _ & E).
  - apply elem_of_dom. by vm_compute; eexists.
  - apply elem_of_dom. by vm_compute; eexists.
  - done.
  - rewrite E, length_app, length_map, length_replicate in Hbound. lia.
Qed.

(** C3, amended. A write buffer has no capacity and nothing is ever dropped
    from it: when [x] floods with any number of reports and [r] does not
    drain, every one of them waits in the buffer of [r], behind what was
    already waiting and in the order sent, so the buffer grows by the number
    of reports and the most recent report is its last packet. *)
Theorem flood_is_buffered_whole (s : Server) (x r : string) (payloads : list value) :
  x ∈ dom (sockets s) → r ∈ dom (sockets s) → r ≠ x →
  let s' := after (flood x payloads) s in
  buffer_of s' r = buffer_of s r ++ map update payloads
  ∧ length (buffer_of s' r) = length (buffer_of s r) + length payloads
  ∧ ∀ newest, last payloads = Some newest → last (buffer_of s' r) = Some (update newest).
Proof.
  intros Hx Hr Hne s'. subst s'.
  destruct (flood_buffer s x r payloads Hx Hr Hne) as (_ & _ & E).
  rewrite E. split; [done|]. split.
  - by rewrite length_app, length_map.
  - intros newest [older ->]%last_Some.
    rewrite map_app, app_assoc. cbn. by rewrite last_snoc.
Qed.

Lemma flood_is_buffered_whole_witness :
  "A" ∈ dom (sockets abc) ∧ "B" ∈ dom (sockets abc) ∧ "B" ≠ "A"
  ∧ let s' := after (flood "A" [lat200; delhi]) abc in
    buffer_of s' "B" = buffer_of abc "B" ++ map update [lat200; delhi]
    ∧ length (buffer_of s' "B") = length (buffer_of abc "B") + length [lat200; delhi]
    ∧ ∀ newest, last [lat200; delhi] = Some newest →
                last (buffer_of s' "B") = Some (update newest).
Proof.
  assert (HA : "A" ∈ dom (sockets abc)) by (apply abc_connected; set_solver).
  assert (HB : "B" ∈ dom (sockets abc)) by (apply abc_connected; set_solver).
  assert (Hne : "B" ≠ "A") by discriminate.
  split; [exact HA|]. split; [exact HB|]. split; [exact Hne|].
  exact (flood_is_buffered_whole abc "A" "B" [lat200; delhi] HA HB Hne).
Defined.

(** C4. Per-recipient order: [x] reports [e1] and later [e2], anything may
    happen in between; a recipient [r] that is connected all along is sent
    the update for [e1] before the update for [e2]: its stream (what was
    flushed to it followed by what waits in its buffer) is the old stream,
    then [e1], then what came in between, then [e2]. *)
Theorem per_recipient_order (s : Server) (x r : string) (e1 e2 : value)
    (between : list event) :
  x ∈ dom (sockets s) → r ∈ dom (sockets s) → r ≠ x →
  Disconnect r ∉ between →
  x ∈ dom (sockets (after (Incoming x "driverLocation" [e1] :: between) s)) →
  ∃ mid,
    stream (after (Incoming x "driverLocation" [e1] :: between
                     ++ [Incoming x "driverLocation" [e2]]) s) r
    = stream s r ++ update e1 :: mid ++ [update e2].
Proof.
  intros Hx Hr Hne Hlive Hx2.
  rewrite app_comm_cons, after_app. rewrite after_cons in Hx2 |- *.
  rewrite after_cons. change (after [] ?t) with t.
  assert (Hr1 : r ∈ dom (sockets (step s (Incoming x "driverLocation" [e1])))).
  { rewrite step_driverLocation by done. cbn [sockets].
    by rewrite dom_adapter_broadcast. }
  destruct (stream_after _ between r Hr1 Hlive) as [Hr2 [mid E2]].
  exists mid.
  rewrite stream_driverLocation by done.
  rewrite E2, stream_driverLocation by done.
  by rewrite <- !app_assoc.
Qed.

Lemma per_recipient_order_witness :
  ∃ mid,
    stream (after (Incoming "A" "driverLocation" [delhi]
                     :: [Writable "B"; Connect "D"; report "C" lat200]
                     ++ [Incoming "A" "driverLocation" [lat200]]) abc) "B"
    = stream abc "B" ++ update delhi :: mid ++ [update lat200].
Proof.
  apply (per_recipient_order abc "A" "B" delhi lat200
           [Writable "B"; Connect "D"; report "C" lat200]).
  - apply abc_connected; set_solver.
  - apply abc_connected; set_solver.
  - discriminate.
  - intros H. repeat (apply elem_of_cons in H as [H|H]; [discriminate H|]).
    by apply elem_of_nil in H.
  - apply elem_of_dom. by vm_compute; eexists.
Defined.

Lemma size_before_delete (m : gmap string Socket) x :
  x ∈ dom m → S (size (delete x m)) = size m.
Proof.
  intros [sock Hx]%elem_of_dom.
  rewrite <- (insert_id m x sock Hx) at 2.
  rewrite <- insert_delete_eq.
  by rewrite map_size_insert_None by apply lookup_delete_eq.
Qed.

(** C5. After the disconnect of a connected client [x] the table of
    connected sockets has exactly one entry less, and as long as no new
    connection is given the same id, whatever else connects, disconnects,
    reports or drains, [x] is not in the table, no step delivers to it,
    nothing waits for it and nothing more is flushed to it. *)
Theorem disconnect_ends_delivery (s : Server) (x : string) (later : list event) :
  x ∈ dom (sockets s) → Connect x ∉ later →
  let s' := step s (Disconnect x) in
  S (size (sockets s')) = size (sockets s)
  ∧ (x ∉ dom (sockets (after later s')))
  ∧ (∀ before e rest, later = before ++ e :: rest →
       x ∉ recipients (after before s') (step (after before s') e))
  ∧ buffer_of (after later s') x = []
  ∧ wire_of (after later s') x = wire_of s x.
Proof.
  intros Hx Hfresh s'. subst s'.
  assert (Hgone : x ∉ dom (sockets (step s (Disconnect x)))).
  { rewrite step_disconnect by done. cbn [sockets]. rewrite dom_delete_L.
    intros [_ Hn]%elem_of_difference. by apply Hn, elem_of_singleton. }
  split.
  { rewrite step_disconnect by done. cbn [sockets]. by apply size_before_delete. }
  destruct (gone_after _ later x Hgone Hfresh) as [Hlater Hwire].
  split; [done|]. split; [|split].
  - intros before e rest ->.
    apply not_elem_of_app in Hfresh as [Hb He].
    apply not_elem_of_cons in He as [He _].
    destruct (gone_after _ before x Hgone Hb) as [Hbefore _].
    destruct (gone_step _ e x Hbefore (not_eq_sym He)) as [Hstep _].
    unfold recipients. intros [_ Hin]%elem_of_filter. done.
  - by apply buffer_of_gone.
  - rewrite Hwire. by rewrite step_disconnect.
Qed.

Lemma disconnect_ends_delivery_witness :
  let s' := step abc (Disconnect "B") in
  let later := [report "A" delhi; Connect "D"; Writable "B"; report "C" lat200] in
  S (size (sockets s')) = size (sockets abc)
  ∧ ("B" ∉ dom (sockets (after later s')))
  ∧ (∀ before e rest, later = before ++ e :: rest →
       "B" ∉ recipients (after before s') (step (after before s') e))
  ∧ buffer_of (after later s') "B" = []
  ∧ wire_of (after later s') "B" = wire_of abc "B".
Proof.
  apply (disconnect_ends_delivery abc "B"
           [report "A" delhi; Connect "D"; Writable "B"; report "C" lat200]).
  - apply abc_connected; set_solver.
  - intros H. repeat (apply elem_of_cons in H as [H|H]; [discriminate H|]).
    by apply elem_of_nil in H.
Defined.




(** What [PORT] is in src/unnamed/part_000. *)
Lemma PORT_unset (env : gmap string string) :
  env !! "PORT" = None → PORT env = JNum 5001.
Proof. intros H. unfold PORT, process_env. by rewrite H. Qed.

Lemma PORT_set (env : gmap string string) (setting : string) :
  env !! "PORT" = Some setting → setting ≠ "" → PORT env = JStr setting.
Proof.
  intros H Hne. unfold PORT, process_env, js_or. rewrite H. cbn.
  apply String.eqb_neq in Hne. by rewrite Hne.
Qed.

(** C8. src/unnamed/part_000 listens on the port of the environment and
    falls back to 5001; the copy in src/backend/server.js listens on 5001
    whatever the environment says. *)
Theorem backend_port_ignores_environment :
  PORT_backend {[ "PORT" := "8080" ]} = JNum 5001
  ∧ PORT {[ "PORT" := "8080" ]} = JStr "8080"
  ∧ PORT ∅ = JNum 5001.
Proof. by vm_compute. Qed.

(** * Properties of the trip planner *)

Module AppFacts.
Import AppJsx Trip.

Lemma effect_keeps_endpoints (a : App) :
  pickup (effect a) = pickup a ∧ drop (effect a) = drop a.
Proof.
  unfold effect.
  destruct (pickup a) eqn:Ep, (drop a) eqn:Ed; cbn; by rewrite ?Ep, ?Ed.
Qed.

Lemma react_endpoints (a : App) (e : ui_event) :
  pickup (react a e) = pickup (handler e a)
  ∧ drop (react a e) = drop (handler e a).
Proof.
  unfold react. destruct (deps_changed a (handler e a)); [|done].
  apply effect_keeps_endpoints.
Qed.

(** The [else] branch of the effect. *)
Lemma effect_resets (a : App) :
  pickup a = None ∨ drop a = None →
  route (effect a) = [] ∧ info (effect a) = None
  ∧ inflight (effect a) = inflight a.
Proof.
  unfold effect. intros [H|H]; rewrite H; [done|].
  by destruct (pickup a).
Qed.

(** A request goes out only from the [then] branch. *)
Lemma effect_fetches_with_both (a : App) :
  inflight (effect a) ≠ inflight a →
  ∃ p d, pickup a = Some p ∧ drop a = Some d
         ∧ inflight (effect a) = inflight a ++ [(p, d)].
Proof.
  unfold effect. destruct (pickup a) as [p|], (drop a) as [d|]; try done.
  intros _. by exists p, d.
Qed.

Lemma Object_is_None (v : option LatLng) : Object_is v None = true → v = None.
Proof. by destruct v. Qed.

Lemma effect_establishes (a : App) : route_needs_endpoints (effect a).
Proof.
  intros H. destruct (effect_keeps_endpoints a) as [Ep Ed].
  rewrite Ep, Ed in H. by destruct (effect_resets a H) as (? & ? & _).
Qed.

(** Clicks, selections and Clear keep the route reset while an endpoint is
    missing; only the end of a request is left to break it. *)
Lemma user_events_keep_route_reset (a : App) (e : ui_event) :
  is_user_event e = true →
  route_needs_endpoints a → route_needs_endpoints (react a e).
Proof.
  intros He Ha. unfold react.
  destruct (deps_changed a (handler e a)) eqn:Hdeps; [apply effect_establishes|].
  apply negb_false_iff, andb_true_iff in Hdeps as [Hp Hd].
  destruct e as [latlng|v|v| |k r]; try done; cbn in *.
  - unfold click in *. destruct (pickup a) as [p|] eqn:Ep; cbn in *; [|done].
    destruct (drop a) as [d|] eqn:Ed; cbn in *; [done|].
    rewrite Ep in Hp. cbn in Hd. done.
  - intros [H|H]; cbn in H.
    + subst v. apply Object_is_None in Hp. apply Ha. by left.
    + apply Ha. by right.
  - intros [H|H]; cbn in H.
    + apply Ha. by left.
    + subst v. apply Object_is_None in Hd. apply Ha. by right.
Qed.

(** C9. The invariant breaks on a request that ends late: pickup and drop
    are chosen, the request is in flight, Clear resets everything, and the
    answer then draws its route although neither endpoint is set. *)
Theorem late_answer_draws_route_without_endpoints :
  let before := play [MapClick connaught_place; MapClick india_gate; ClearAll] mounted in
  let a := play clear_before_answer mounted in
  inflight before = [(connaught_place, india_gate)]
  ∧ pickup before = None ∧ drop before = None ∧ route before = []
  ∧ pickup a = None ∧ drop a = None
  ∧ route a = [(28.63, 77.22); (28.62, 77.23); (28.61, 77.23)]%Q
  ∧ info a = Some {| distance := 3.2; duration := 9 |}
  ∧ ¬ route_needs_endpoints a.
Proof.
  cbv zeta. repeat (split; [by vm_compute|]).
  intros H. destruct H as [H _]; [by left|]. vm_compute in H. discriminate H.
Qed.

(** C10. A click on the map, by what is set before it: without a pickup
    the clicked point becomes the pickup; with a pickup and no drop it
    becomes the drop; with both it becomes the pickup and the drop is set
    back to null.  The effect that may follow the click changes neither. *)
Theorem map_click_selects_pickup_then_drop (a : App) (latlng : LatLng) :
  click latlng a
  = match pickup a, drop a with
    | None, _ => setPickup (Some latlng) a
    | Some _, None => setDrop (Some latlng) a
    | Some _, Some _ => setDrop None (setPickup (Some latlng) a)
    end
  ∧ let a' := react a (MapClick latlng) in
    match pickup a, drop a with
    | None, d => pickup a' = Some latlng ∧ drop a' = d
    | Some p, None => pickup a' = Some p ∧ drop a' = Some latlng
    | Some _, Some _ => pickup a' = Some latlng ∧ drop a' = None
    end.
Proof.
  split.
  - unfold click. by destruct (pickup a), (drop a).
  - cbv zeta. destruct (react_endpoints a (MapClick latlng)) as [-> ->].
    cbn. unfold click.
    destruct (pickup a) eqn:Ep, (drop a) eqn:Ed; cbn; by rewrite ?Ep, ?Ed.
Qed.

End AppFacts.

(** * More about the relay: whole runs *)

Section RelayRuns.

Implicit Types (s : Server) (id x r : string) (p : packet) (e : event).

Lemma stream_writable s id r : stream (step s (Writable id)) r = stream s r.
Proof.
  destruct (sockets s !! id) as [sock|] eqn:Hid.
  - rewrite (step_writable _ _ sock) by done.
    destruct (decide (id = r)) as [->|Hne].
    + unfold stream, wire_of, buffer_of. cbn.
      rewrite !lookup_insert_eq, Hid. cbn. by rewrite app_nil_r.
    + apply stream_ext; cbn; by rewrite lookup_insert_ne.
  - by rewrite step_ignored by by apply not_elem_of_dom.
Qed.

Lemma dom_writable s id : dom (sockets (step s (Writable id))) = dom (sockets s).
Proof.
  destruct (sockets s !! id) as [sock|] eqn:Hid.
  - rewrite (step_writable _ _ sock) by done. cbn [sockets].
    rewrite dom_insert_L. apply set_eq. intros y.
    rewrite elem_of_union, elem_of_singleton. split; [|by right].
    intros [->|Hy]; [|done]. apply elem_of_dom. eauto.
  - by rewrite step_ignored by by apply not_elem_of_dom.
Qed.

Lemma stream_report_own s x args :
  x ∈ dom (sockets s) →
  stream (step s (Incoming x "driverLocation" args)) x = stream s x.
Proof.
  intros Hx. rewrite step_driverLocation by done.
  unfold stream. rewrite buffer_of_broadcast.
  rewrite decide_True; [done|]. left. by apply elem_of_singleton.
Qed.

Lemma stream_report_other s x r args :
  x ∈ dom (sockets s) → r ∈ dom (sockets s) → r ≠ x →
  stream (step s (Incoming x "driverLocation" args)) r
  = stream s r ++ [update (arg 0 args)].
Proof.
  intros Hx Hr Hne. rewrite step_driverLocation by done.
  unfold stream. rewrite buffer_of_broadcast.
  rewrite decide_False by (intros [Hrx%elem_of_singleton|?]; done).
  by rewrite app_assoc.
Qed.

Lemma traffic_step s e r :
  r ∈ dom (sockets s) → is_traffic e = true →
  dom (sockets (step s e)) = dom (sockets s)
  ∧ stream (step s e) r = stream s r ++ heard (dom (sockets s)) r e.
Proof.
  intros Hr He. destruct e as [id|x name args|id|id]; try done.
  - cbn [heard].
    destruct (decide (x ∈ dom (sockets s))) as [Hx|Hx].
    + rewrite (bool_decide_eq_true_2 _ Hx). cbn [andb].
      destruct (String.eqb_spec name "driverLocation") as [->|Hname].
      * split.
        { rewrite step_driverLocation by done. cbn [sockets].
          apply dom_adapter_broadcast. }
        destruct (String.eqb_spec x r) as [->|Hxr]; cbn [andb negb].
        -- by rewrite stream_report_own, app_nil_r.
        -- by rewrite stream_report_other.
      * rewrite step_ignored by by right. cbn. by rewrite app_nil_r.
    + rewrite (bool_decide_eq_false_2 _ Hx). cbn [andb].
      rewrite step_ignored by by left. by rewrite app_nil_r.
  - cbn [heard]. by rewrite dom_writable, stream_writable, app_nil_r.
Qed.

(** X1. While nobody connects or disconnects, what a connected client is
    sent is exactly the reports of the other connected clients, once each
    and in the order they arrived. *)
Theorem relay_is_exactly_once (s : Server) (r : string) (events : list event) :
  r ∈ dom (sockets s) → forallb is_traffic events = true →
  dom (sockets (after events s)) = dom (sockets s)
  ∧ stream (after events s) r
    = stream s r ++ heard_by (dom (sockets s)) r events.
Proof.
  revert s. induction events as [|e events IH]; intros s Hr Hev.
  - cbn. by rewrite app_nil_r.
  - cbn in Hev. apply andb_true_iff in Hev as [He Hev].
    rewrite after_cons.
    destruct (traffic_step s e r Hr He) as [Hdom Hstream].
    destruct (IH (step s e)) as [Hdom' Hstream']; [by rewrite Hdom|done|].
    split; [by rewrite Hdom', Hdom|].
    rewrite Hstream', Hstream, Hdom. cbn. by rewrite app_assoc.
Qed.

Lemma relay_is_exactly_once_witness :
  stream (after [report "A" delhi; report "B" lat200; Writable "B";
                 Incoming "C" "hello" []; report "Z" delhi; report "C" JNull] abc) "B"
  = [update delhi; update JNull].
Proof.
  pose proof (relay_is_exactly_once abc "B"
    [report "A" delhi; report "B" lat200; Writable "B";
     Incoming "C" "hello" []; report "Z" delhi; report "C" JNull]) as H.
  destruct H as [_ H].
  - apply abc_connected. set_solver.
  - reflexivity.
  - rewrite H. by vm_compute.
Defined.

End RelayRuns.

Section RelayInvariants.

Implicit Types (s : Server) (id x r : string) (p : packet) (e : event).

Lemma wire_step_cases s e r :
  wire_of (step s e) r = wire_of s r
  ∨ wire_of (step s e) r = wire_of s r ++ buffer_of s r.
Proof.
  destruct e as [id|id name args|id|id].
  - destruct (decide (id ∈ dom (sockets s))) as [Hid|Hid].
    + left. by rewrite step_ignored.
    + left. by rewrite step_connect.
  - destruct (decide (id ∈ dom (sockets s) ∧ name = "driverLocation"))
      as [[Hid ->]|Hno].
    + left. by rewrite step_driverLocation.
    + left. rewrite step_ignored; [done|].
      destruct (decide (id ∈ dom (sockets s))); [|by left].
      right. intros ->. by apply Hno.
  - destruct (decide (id ∈ dom (sockets s))) as [Hid|Hid].
    + left. by rewrite step_disconnect.
    + left. by rewrite step_ignored.
  - destruct (sockets s !! id) as [sock|] eqn:Hid.
    + rewrite (step_writable _ _ sock) by done.
      destruct (decide (id = r)) as [->|Hne].
      * right. unfold wire_of at 1, buffer_of. cbn [wire].
        by rewrite lookup_insert_eq, Hid.
      * left. unfold wire_of. cbn [wire]. by rewrite lookup_insert_ne.
    + left. by rewrite step_ignored by by apply not_elem_of_dom.
Qed.

Lemma only_updates_step s e :
  (∀ r, Forall (λ p, ∃ data, p = update data) (wire_of s r)
        ∧ Forall (λ p, ∃ data, p = update data) (buffer_of s r)) →
  ∀ r, Forall (λ p, ∃ data, p = update data) (wire_of (step s e) r)
       ∧ Forall (λ p, ∃ data, p = update data) (buffer_of (step s e) r).
Proof.
  intros Hs r. destruct (Hs r) as [Hw Hb]. split.
  - destruct (wire_step_cases s e r) as [->| ->]; [done|].
    by apply Forall_app.
  - destruct (buffer_step_cases s e r) as [->|[->|(x & args & _ & ->)]];
      [done|by apply Forall_nil|].
    apply Forall_app. split; [done|].
    apply Forall_singleton. by eexists.
Qed.

(** X2. The server never sends anything of its own or under another name:
    whatever happens from the start, every packet flushed to a client or
    waiting for one is a [driverLocationUpdate] carrying one payload. *)
Theorem server_sends_only_updates (events : list event) (r : string) :
  Forall (λ p, ∃ data, p = Packet "driverLocationUpdate" [data])
         (stream (after events initial) r).
Proof.
  cut (∀ s, (∀ r, Forall (λ p, ∃ data, p = update data) (wire_of s r)
                  ∧ Forall (λ p, ∃ data, p = update data) (buffer_of s r)) →
            Forall (λ p, ∃ data, p = update data) (stream (after events s) r)).
  { intros H. apply H. intros r'. by split; apply Forall_nil. }
  induction events as [|e events IH]; intros s Hs.
  - destruct (Hs r). by apply Forall_app.
  - rewrite after_cons. apply IH. by apply only_updates_step.
Qed.





(** X4. The port of src/unnamed/part_000: an empty [PORT] setting counts as
    unset and gives 5001; any other setting is handed on as the string it
    is; and what is handed on is never a falsy value. *)
Theorem PORT_by_environment (env : gmap string string) :
  PORT env = match env !! "PORT" with
             | Some "" | None => JNum 5001
             | Some setting => JStr setting
             end
  ∧ truthy (PORT env) = true.
Proof.
  unfold PORT, process_env, js_or.
  destruct (env !! "PORT") as [setting|]; [|done].
  cbn. destruct (String.eqb_spec setting "") as [->|Hne]; [done|].
  cbn. by destruct setting.
Qed.

End RelayInvariants.

(** X5. Joining and leaving are silent: a connection or a disconnection
    puts nothing into anybody's write buffer, so a client that joins is sent
    no earlier report and the others are not told of it, and a client other
    than the one that leaves keeps its stream as it is. *)
Theorem joins_and_leaves_are_silent (s : Server) (id r : string) :
  buffer_of (step s (Connect id)) r = buffer_of s r
  ∧ wire_of (step s (Connect id)) r = wire_of s r
  ∧ (r = id ∨ stream (step s (Disconnect id)) r = stream s r).
Proof.
  split; [|split].
  - destruct (decide (id ∈ dom (sockets s))) as [Hid|Hid].
    + by rewrite step_ignored.
    + rewrite step_connect by done. unfold buffer_of at 1. cbn [sockets].
      destruct (decide (id = r)) as [->|Hne].
      * rewrite lookup_insert_eq. cbn. by rewrite buffer_of_gone.
      * by rewrite lookup_insert_ne.
  - destruct (decide (id ∈ dom (sockets s))) as [Hid|Hid].
    + by rewrite step_ignored.
    + by rewrite step_connect.
  - destruct (decide (r = id)) as [->|Hne]; [by left|right].
    destruct (decide (id ∈ dom (sockets s))) as [Hid|Hid].
    + rewrite step_disconnect by done. apply stream_ext; cbn; [|done].
      by rewrite lookup_delete_ne.
    + by rewrite step_ignored.
Qed.

(** * More about the trip planner: whole sessions *)

Module AppRuns.
Import AppJsx Trip AppView.

Lemma play_invariant (P : App → Prop) :
  (∀ a e, P a → P (react a e)) →
  ∀ events a, P a → P (play events a).
Proof.
  intros Hstep events. induction events as [|e events IH]; intros a Ha; [done|].
  cbn. apply IH. by apply Hstep.
Qed.

Lemma react_invariant (P : App → Prop) :
  (∀ a e, P a → P (handler e a)) → (∀ a, P a → P (effect a)) →
  ∀ a e, P a → P (react a e).
Proof.
  intros Hh He a e Ha. unfold react.
  destruct (deps_changed a (handler e a)); auto.
Qed.

Lemma handler_keeps_requests (a : App) (e : ui_event) :
  is_user_event e = true →
  isLoadingRoute (handler e a) = isLoadingRoute a
  ∧ inflight (handler e a) = inflight a
  ∧ route (handler e a) = match e with ClearAll => [] | _ => route a end
  ∧ info (handler e a) = match e with ClearAll => None | _ => info a end.
Proof.
  destruct e as [latlng|v|v| |k r]; try done.
  intros _. cbn. unfold click.
  by destruct (unset (pickup a)), (unset (drop a)).
Qed.

Lemma handler_settled_endpoints (a : App) (k : nat) (r : response) :
  pickup (handler (Settled k r) a) = pickup a
  ∧ drop (handler (Settled k r) a) = drop a.
Proof.
  cbn. destruct (inflight a !! k); [|done].
  by destruct r as [|[|routeData rest]].
Qed.

Lemma Object_is_refl (v : option LatLng) : Object_is v v = true.
Proof. destruct v; [|done]. cbn. apply Nat.eqb_refl. Qed.

(** A request that ends is not followed by the effect: no dependency
    changed. *)
Lemma react_settled (a : App) (k : nat) (r : response) :
  react a (Settled k r) = handler (Settled k r) a.
Proof.
  unfold react, deps_changed.
  destruct (handler_settled_endpoints a k r) as [-> ->].
  by rewrite !Object_is_refl.
Qed.

Lemma spinner_invariant (events : list ui_event) :
  isLoadingRoute (play events mounted) = true → inflight (play events mounted) ≠ [].
Proof.
  apply (play_invariant (λ a, isLoadingRoute a = true → inflight a ≠ [])); [|done].
  apply (react_invariant (λ a, isLoadingRoute a = true → inflight a ≠ [])).
  - intros a e Ha. destruct (is_user_event e) eqn:He.
    + by destruct (handler_keeps_requests a e He) as (-> & -> & _).
    + destruct e as [| | | |k r]; try done. cbn.
      destruct (inflight a !! k); [|done].
      by destruct r as [|[|routeData rest]].
  - intros a Ha. unfold effect. destruct (pickup a), (drop a); cbn; try done.
    intros _ H. by destruct (inflight a).
Qed.

(** X6. The spinner is shown only while a route request is in flight: in
    every state the component can reach, a panel that shows the spinner
    means that some request has not ended yet. *)
Theorem spinner_means_request_in_flight (events : list ui_event) :
  route_panel (play events mounted) = Spinner →
  inflight (play events mounted) ≠ [].
Proof.
  intros Hpanel. apply spinner_invariant.
  unfold route_panel in Hpanel.
  destruct (isLoadingRoute (play events mounted)); [done|].
  rewrite orb_false_r in Hpanel.
  by destruct (info (play events mounted)).
Qed.

Lemma spinner_means_request_in_flight_witness :
  inflight (play [MapClick connaught_place; MapClick india_gate] mounted) ≠ [].
Proof.
  apply (spinner_means_request_in_flight [MapClick connaught_place; MapClick india_gate]).
  reflexivity.
Defined.

Lemma summary_invariant (events : list ui_event) :
  info (play events mounted) = None → route (play events mounted) = [].
Proof.
  apply (play_invariant (λ a, info a = None → route a = [])); [|done].
  apply (react_invariant (λ a, info a = None → route a = [])).
  - intros a e Ha. destruct (is_user_event e) eqn:He.
    + destruct (handler_keeps_requests a e He) as (_ & _ & -> & ->).
      by destruct e.
    + destruct e as [| | | |k r]; try done. cbn.
      destruct (inflight a !! k); [|done].
      by destruct r as [|[|routeData rest]].
  - intros a Ha. unfold effect. by destruct (pickup a), (drop a).
Qed.

(** X7. A drawn route comes with its figures: in every state the component
    can reach, when the route line is on the map the panel below is shown,
    with the spinner or with the duration and distance of a route. *)
Theorem route_line_comes_with_panel (events : list ui_event) :
  polyline (play events mounted) ≠ None →
  route_panel (play events mounted) ≠ NoPanel.
Proof.
  intros Hline. pose proof (summary_invariant events) as Hinv.
  revert Hline Hinv. generalize (play events mounted). intros a Hline Hinv.
  unfold polyline in Hline. unfold route_panel.
  destruct (info a) as [i|].
  - cbn. by destruct (isLoadingRoute a).
  - rewrite Hinv in Hline by done. done.
Qed.

Lemma route_line_comes_with_panel_witness :
  route_panel (play [MapClick connaught_place; MapClick india_gate; Settled 0 answer] mounted)
  ≠ NoPanel.
Proof.
  apply (route_line_comes_with_panel
           [MapClick connaught_place; MapClick india_gate; Settled 0 answer]).
  by vm_compute.
Defined.

Lemma timely_keeps_route_reset (events : list ui_event) (a : App) :
  route_needs_endpoints a → timely a events = true →
  route_needs_endpoints (play events a).
Proof.
  revert a. induction events as [|e events IH]; intros a Ha Ht; [done|].
  cbn in Ht. apply andb_true_iff in Ht as [He Ht].
  cbn. apply IH; [|done].
  destruct (is_user_event e) eqn:Hu.
  - by apply AppFacts.user_events_keep_route_reset.
  - destruct e as [| | | |k r]; try done.
    apply andb_true_iff in He as [Hp Hd].
    rewrite react_settled.
    destruct (handler_settled_endpoints a k r) as [Ep Ed].
    intros [H|H]; [rewrite Ep in H|rewrite Ed in H]; rewrite H in *; done.
Qed.

(** X8. Without late answers the route is never out of place: in a session
    in which every request ends while both endpoints are set, whenever the
    pickup or the drop is missing the route is empty and the route info is
    null; so a route line on the map has both its markers and the Clear
    button beside it. *)
Theorem timely_answers_keep_route_in_place (events : list ui_event) :
  timely mounted events = true →
  let a := play events mounted in
  route_needs_endpoints a
  ∧ (polyline a ≠ None → clear_button a = true ∧ pickup a ≠ None ∧ drop a ≠ None).
Proof.
  intros Ht a.
  assert (Ha : route_needs_endpoints a).
  { apply timely_keeps_route_reset; [|done]. by intros _. }
  split; [done|]. intros Hline.
  unfold polyline in Hline. unfold clear_button.
  destruct (pickup a) as [p|] eqn:Ep.
  - destruct (drop a) as [d|] eqn:Ed; [done|].
    destruct Ha as [Hr _]; [by right|]. by rewrite Hr in Hline.
  - destruct Ha as [Hr _]; [by left|]. by rewrite Hr in Hline.
Qed.

Lemma timely_answers_keep_route_in_place_witness :
  let a := play [MapClick connaught_place; MapClick india_gate; Settled 0 answer;
                 MapClick india_gate] mounted in
  route_needs_endpoints a
  ∧ (polyline a ≠ None → clear_button a = true ∧ pickup a ≠ None ∧ drop a ≠ None).
Proof.
  apply (timely_answers_keep_route_in_place
           [MapClick connaught_place; MapClick india_gate; Settled 0 answer;
            MapClick india_gate]).
  reflexivity.
Defined.

(** X9. Clear empties the four pieces of state it names and nothing else:
    the loading flag and the requests in flight are as before, so a pending
    request is neither cancelled nor forgotten; pressing Clear again changes
    nothing. *)
Theorem clear_resets_but_cancels_nothing (a : App) :
  react a ClearAll
  = {| pickup := None; drop := None; route := []; info := None;
       isLoadingRoute := isLoadingRoute a; inflight := inflight a |}
  ∧ react (react a ClearAll) ClearAll = react a ClearAll.
Proof.
  assert (H : ∀ b, react b ClearAll
              = {| pickup := None; drop := None; route := []; info := None;
                   isLoadingRoute := isLoadingRoute b; inflight := inflight b |}).
  { intros b. unfold react. by destruct (deps_changed b (handler ClearAll b)). }
  split; [apply H|]. by rewrite !H.
Qed.

(** X10. Which clicks on the map send a route request: the click that
    completes the pair sends exactly one, for the pickup and drop then set,
    and turns the loading flag on; a click that sets a first endpoint, or
    that restarts the selection when both were set, sends none. *)
Theorem click_requests_route_when_pair_completes (a : App) (latlng : LatLng) :
  let a' := react a (MapClick latlng) in
  match pickup a, drop a with
  | Some p, None => inflight a' = inflight a ++ [(p, latlng)]
                    ∧ isLoadingRoute a' = true
  | None, Some d => inflight a' = inflight a ++ [(latlng, d)]
                    ∧ isLoadingRoute a' = true
  | None, None | Some _, Some _ =>
      inflight a' = inflight a ∧ isLoadingRoute a' = isLoadingRoute a
  end.
Proof.
  cbv zeta. unfold react, deps_changed. cbn [handler]. unfold click.
  destruct (pickup a) as [p|] eqn:Ep, (drop a) as [d|] eqn:Ed; cbn;
    rewrite ?Ep, ?Ed; cbn; rewrite ?Nat.eqb_refl, ?andb_false_r; cbn;
    unfold effect; cbn; rewrite ?Ep, ?Ed; done.
Qed.



(** X12. The end of a request, whichever way it ends, removes that request
    from those in flight and turns the loading flag off, also when other
    requests are still in flight, and leaves pickup and drop alone; when the
    request failed or the answer holds no route, the route and the figures
    shown before stay as they are. *)
Theorem request_end_clears_loading_flag (a : App) (k : nat)
    (request : LatLng * LatLng) (r : response) :
  inflight a !! k = Some request →
  let a' := react a (Settled k r) in
  isLoadingRoute a' = false
  ∧ inflight a' = delete k (inflight a)
  ∧ pickup a' = pickup a ∧ drop a' = drop a
  ∧ (r = Rejected ∨ r = Resolved [] → route a' = route a ∧ info a' = info a).
Proof.
  intros Hk. cbv zeta. rewrite react_settled. cbn. rewrite Hk.
  destruct r as [|[|routeData rest]]; cbn;
    (split; [done|]; split; [done|]; split; [done|]; split; [done|]);
    intros [H|H]; done.
Qed.

Lemma request_end_clears_loading_flag_witness :
  let a := play [MapClick connaught_place; MapClick india_gate;
                 SelectDrop (Some connaught_place)] mounted in
  let a' := react a (Settled 0 Rejected) in
  isLoadingRoute a' = false
  ∧ inflight a' = delete 0 (inflight a)
  ∧ pickup a' = pickup a ∧ drop a' = drop a
  ∧ (Rejected = Rejected ∨ Rejected = Resolved [] → route a' = route a ∧ info a' = info a).
Proof.
  apply (request_end_clears_loading_flag
           (play [MapClick connaught_place; MapClick india_gate;
                  SelectDrop (Some connaught_place)] mounted)
           0 (connaught_place, india_gate) Rejected).
  reflexivity.
Defined.

End AppRuns.
